(** * Rolling-update failure accounting (apache/aurora/client/api/updater_util.py)

    A shallow embedding of [UpdaterConfig] and [FailureThreshold] together
    with the properties of the failure-accounting engine.

    Python integers are unbounded, hence [Z].  The counter map is a
    [collections.defaultdict(int)], modelled as a [gmap] from instance
    identifiers to [Z] with the get-or-insert-zero read written out.  Methods
    that mutate [self] or emit log records are computations in a small state
    monad over the object and the error log. *)

From Stdlib Require Import ZArith Lia.
From stdpp Require Import gmap list fin_maps strings.

Local Open Scope Z_scope.

(** ** Exceptions *)

Inductive exn : Type :=
  | ValueError (msg : string).

Inductive result (A : Type) : Type :=
  | Ok (a : A)
  | Raise (e : exn).

Arguments Ok {A} a.
Arguments Raise {A} e.

(** ** UpdaterConfig *)

Module UpdaterConfig.

Record t : Type := mk {
  batch_size : Z;
  restart_threshold : Z;
  watch_secs : Z;
  max_total_failures : Z;
  max_per_instance_failures : Z
}.

(** [UpdaterConfig.__init__]: three guards, checked in this order, then the
    five attribute assignments.  The fourth argument is stored as
    [max_per_instance_failures]. *)
Definition __init__
    (batch_size restart_threshold watch_secs
     max_per_shard_failures max_total_failures : Z) : result t :=
  if batch_size <=? 0 then
    Raise (ValueError "Batch size should be greater than 0")
  else if restart_threshold <=? 0 then
    Raise (ValueError "Restart Threshold should be greater than 0")
  else if watch_secs <=? 0 then
    Raise (ValueError "Watch seconds should be greater than 0")
  else
    Ok (mk batch_size restart_threshold watch_secs
           max_total_failures max_per_shard_failures).

End UpdaterConfig.

(** ** FailureThreshold *)

Module FailureThreshold.

Section Methods.

Context {K : Type} `{Countable K}.

Record t : Type := mk {
  _max_per_instance_failures : Z;
  _max_total_failures : Z;
  _failures_by_instance : gmap K Z
}.

(** One record per [log.error] call; the fields are the arguments of the
    format string, in the order they are given. *)
Inductive log_record : Type :=
  | FailedInstancesObserved (total_failed_instances max_total_failures : Z)
  | InstanceFailures (failure_count : Z) (instance : K)
                     (max_per_instance_failures : Z).

(** The object a method runs on, and what it has logged so far. *)
Record Heap : Type := mkHeap {
  self : t;
  error_log : list log_record
}.

Definition M (A : Type) : Type := Heap → A * Heap.

Definition ret {A} (a : A) : M A := λ h, (a, h).

Definition bind {A B} (m : M A) (k : A → M B) : M B :=
  λ h, let '(a, h') := m h in k a h'.

Notation "x <- m ;; k" := (bind m (λ x, k))
  (at level 100, m at next level, right associativity).
Notation "m ;;; k" := (bind m (λ _, k))
  (at level 100, right associativity).

Definition get_self : M t := λ h, (self h, h).

Definition set_failures (d : gmap K Z) : M unit :=
  λ h, (tt, mkHeap (mk
                      (_max_per_instance_failures (self h))
                      (_max_total_failures (self h)) d)
                   (error_log h)).

Definition log_error (r : log_record) : M unit :=
  λ h, (tt, mkHeap (self h) (error_log h ++ [r])).

(** [defaultdict(int).__getitem__]: a missing key is inserted with [int()],
    which is 0, and that value is returned. *)
Definition defaultdict_getitem (k : K) (d : gmap K Z) : Z * gmap K Z :=
  match d !! k with
  | Some v => (v, d)
  | None => (0, <[k := 0]> d)
  end.

(** [self._failures_by_instance[instance]] as an expression. *)
Definition failures_getitem (instance : K) : M Z :=
  ft <- get_self ;;
  let '(v, d) := defaultdict_getitem instance (_failures_by_instance ft) in
  set_failures d ;;;
  ret v.

(** [self._failures_by_instance[instance] = v]. *)
Definition failures_setitem (instance : K) (v : Z) : M unit :=
  ft <- get_self ;;
  set_failures (<[instance := v]> (_failures_by_instance ft)).

(** [FailureThreshold.__init__] *)
Definition __init__ (max_per_instance_failures max_total_failures : Z)
  : t :=
  mk max_per_instance_failures max_total_failures ∅.

(** The [for] loop of [update_failure_counts]; the accumulator is
    [exceeded_failure_count_instances]. *)
Fixpoint update_failure_counts_loop
    (failed_instances : list K) (exceeded_failure_count_instances : list K)
  : M (list K) :=
  match failed_instances with
  | [] => ret exceeded_failure_count_instances
  | instance :: rest =>
      c <- failures_getitem instance ;;
      failures_setitem instance (c + 1) ;;;
      c' <- failures_getitem instance ;;
      ft <- get_self ;;
      if c' >? _max_per_instance_failures ft then
        update_failure_counts_loop rest
          (exceeded_failure_count_instances ++ [instance])
      else
        update_failure_counts_loop rest exceeded_failure_count_instances
  end.

Definition update_failure_counts (failed_instances : list K) : M (list K) :=
  update_failure_counts_loop failed_instances [].

(** Python's [sum] over an iterable of booleans: start at 0 and add each item,
    [True] counting as 1. *)
Definition builtin_sum (items : list bool) : Z :=
  foldl (λ acc b, acc + Z.b2z b) 0 items.

(** [self._failures_by_instance.items()]; [.values()] is its second
    projection.  The iteration order of a dict is not specified by the source;
    [map_to_list] fixes one. *)
Definition items (d : gmap K Z) : list (K * Z) := map_to_list d.

Definition values (d : gmap K Z) : list Z := (items d).*2.

Definition _exceeded_instance_fail_count : M Z :=
  ft <- get_self ;;
  ret (builtin_sum (map (λ count, count >? _max_per_instance_failures ft)
                (values (_failures_by_instance ft)))).

(** The inner [for] loop of [is_failed_update], over [items()]. *)
Fixpoint log_instance_failures (its : list (K * Z)) : M unit :=
  match its with
  | [] => ret tt
  | (instance, failure_count) :: rest =>
      ft <- get_self ;;
      (if failure_count >? _max_per_instance_failures ft then
         log_error (InstanceFailures failure_count instance
                      (_max_per_instance_failures ft))
       else ret tt) ;;;
      log_instance_failures rest
  end.

Definition is_failed_update : M bool :=
  total_failed_instances <- _exceeded_instance_fail_count ;;
  ft <- get_self ;;
  let is_failed := total_failed_instances >? _max_total_failures ft in
  (if is_failed then
     log_error (FailedInstancesObserved total_failed_instances
                  (_max_total_failures ft)) ;;;
     ft' <- get_self ;;
     log_instance_failures (items (_failures_by_instance ft'))
   else ret tt) ;;;
  ret is_failed.

End Methods.

Arguments t K {_ _}.
Arguments Heap K {_ _}.
Arguments log_record K : clear implicits.

(** ** Vocabulary of the properties *)

Section Vocabulary.

Context {K : Type} `{Countable K}.

(** The stored counter of an instance, reading a key that was never referenced
    as the zero a [defaultdict(int)] would give it. *)
Definition failure_count (ft : t K) (instance : K) : Z :=
  default 0 (_failures_by_instance ft !! instance).

(** How many times an identifier occurs in a batch. *)
Fixpoint occurrences (instance : K) (failed_instances : list K) : Z :=
  match failed_instances with
  | [] => 0
  | i :: rest =>
      (if decide (i = instance) then 1 else 0) + occurrences instance rest
  end.

(** The instances whose stored counter is strictly greater than the
    per-instance limit, and how many there are. *)
Definition over_limit (ft : t K) : gmap K Z :=
  filter (λ kc, _max_per_instance_failures ft < kc.2)
         (_failures_by_instance ft).

Definition exceeded_count (ft : t K) : Z := Z.of_nat (size (over_limit ft)).

(** Net effect of one iteration of the loop of [update_failure_counts]. *)
Definition record_failure (instance : K) (h : Heap K) : Heap K :=
  mkHeap
    (mk (_max_per_instance_failures (self h)) (_max_total_failures (self h))
        (<[instance := failure_count (self h) instance + 1]>
           (_failures_by_instance (self h))))
    (error_log h).

(** The accountants a client can hold: a freshly constructed one, and whatever
    the two methods leave behind. *)
Inductive reachable : t K → Prop :=
  | reachable_init mp mt :
      reachable (__init__ mp mt)
  | reachable_update ft log failed_instances :
      reachable ft →
      reachable (self (update_failure_counts failed_instances
                         (mkHeap ft log)).2)
  | reachable_query ft log :
      reachable ft →
      reachable (self (is_failed_update (mkHeap ft log)).2).

(** Is the counter above the limit right after position [i] of the batch has
    been processed? *)
Definition over_limit_at (ft : t K) (failed_instances : list K)
    (i : nat) (instance : K) : bool :=
  failure_count ft instance
    + occurrences instance (take (S i) failed_instances)
  >? _max_per_instance_failures ft.

(** Every stored counter has been incremented at least once. *)
Definition counters_positive (ft : t K) : Prop :=
  ∀ k c, _failures_by_instance ft !! k = Some c → 1 ≤ c.

(** The sub-list of the batch made of the positions after which the counter
    of the instance at that position is above the limit, in batch order. *)
Definition occurrences_over_limit (ft : t K) (failed_instances : list K)
  : list K :=
  (filter (λ ia, Is_true (over_limit_at ft failed_instances ia.1 ia.2))
          (imap pair failed_instances)).*2.

(** The failures an accountant has on record: the sum of its stored
    counters. *)
Definition recorded_failures (ft : t K) : Z :=
  map_fold (λ _ count acc, count + acc) 0 (_failures_by_instance ft).


End Vocabulary.

(** ** The loop of [update_failure_counts] *)

Section Loop.

Context {K : Type} `{Countable K}.

Implicit Types (h : Heap K) (l exc : list K) (a b : K).

Lemma occurrences_nonneg a l : 0 ≤ occurrences a l.
Proof. induction l as [|b l IH]; simpl; [lia|]. case_decide; lia. Qed.

Lemma occurrences_app a l1 l2 :
  occurrences a (l1 ++ l2) = occurrences a l1 + occurrences a l2.
Proof. induction l1 as [|b l1 IH]; simpl; [done|]. rewrite IH. lia. Qed.

Lemma occurrences_pos a l : 0 < occurrences a l ↔ a ∈ l.
Proof.
  induction l as [|b l IH]; simpl.
  - split; [lia|]. by intros ?%elem_of_nil.
  - rewrite elem_of_cons. pose proof (occurrences_nonneg a l) as Hge.
    case_decide as Hb.
    + split; [by left|lia].
    + rewrite Z.add_0_l, IH. split; [by right|].
      by intros [->|?].
Qed.

Lemma failure_count_record_failure a b h :
  failure_count (self (record_failure a h)) b
  = failure_count (self h) b + (if decide (a = b) then 1 else 0).
Proof.
  unfold record_failure, failure_count; simpl.
  case_decide; subst.
  - by rewrite lookup_insert_eq.
  - rewrite lookup_insert_ne by done. lia.
Qed.

(** One iteration: the counter is bumped, and the instance is appended when
    its new counter is above the limit. *)
Lemma update_failure_counts_loop_cons a l exc h :
  update_failure_counts_loop (a :: l) exc h
  = update_failure_counts_loop l
      (if failure_count (self h) a + 1 >? _max_per_instance_failures (self h)
       then exc ++ [a] else exc)
      (record_failure a h).
Proof.
  destruct h as [[mp mt d] log].
  unfold record_failure, failure_count; simpl.
  unfold bind, failures_getitem, failures_setitem, bind, get_self,
    defaultdict_getitem; simpl.
  destruct (d !! a) as [c|] eqn:Hd; simpl.
  - rewrite lookup_insert_eq; simpl. by destruct (c + 1 >? mp).
  - rewrite lookup_insert_eq, insert_insert_eq; simpl.
    by destruct (0 + 1 >? mp).
Qed.

(** The limits and the log are not touched by the loop. *)
Lemma update_failure_counts_loop_frame l exc h :
  _max_per_instance_failures (self (update_failure_counts_loop l exc h).2)
    = _max_per_instance_failures (self h)
  ∧ _max_total_failures (self (update_failure_counts_loop l exc h).2)
    = _max_total_failures (self h)
  ∧ error_log (update_failure_counts_loop l exc h).2 = error_log h.
Proof.
  revert exc h. induction l as [|a l IH]; intros exc h; [done|].
  rewrite update_failure_counts_loop_cons.
  destruct (IH (if failure_count (self h) a + 1
                     >? _max_per_instance_failures (self h)
                then exc ++ [a] else exc) (record_failure a h))
    as (-> & -> & ->).
  done.
Qed.

(** Every occurrence adds one to the counter of its instance. *)
Lemma update_failure_counts_loop_count l exc h a :
  failure_count (self (update_failure_counts_loop l exc h).2) a
  = failure_count (self h) a + occurrences a l.
Proof.
  revert exc h. induction l as [|b l IH]; intros exc h; simpl occurrences.
  - simpl. lia.
  - rewrite update_failure_counts_loop_cons, IH,
      failure_count_record_failure. lia.
Qed.

(** The accumulator is only ever extended at its end. *)
Lemma update_failure_counts_loop_acc l exc h :
  update_failure_counts_loop l exc h
  = (exc ++ (update_failure_counts_loop l [] h).1,
     (update_failure_counts_loop l [] h).2).
Proof.
  revert exc h. induction l as [|a l IH]; intros exc h.
  - simpl. unfold ret. by rewrite app_nil_r.
  - rewrite !update_failure_counts_loop_cons.
    destruct (failure_count (self h) a + 1
                >? _max_per_instance_failures (self h)).
    + rewrite (IH (exc ++ [a])), (IH ([] ++ [a])); simpl.
      by rewrite <- app_assoc.
    + apply IH.
Qed.

(** Processing a batch in two halves, one call after the other, is the same
    as processing it in one call. *)
Lemma update_failure_counts_loop_app l1 l2 exc h :
  update_failure_counts_loop (l1 ++ l2) exc h
  = update_failure_counts_loop l2
      (update_failure_counts_loop l1 exc h).1
      (update_failure_counts_loop l1 exc h).2.
Proof.
  revert exc h. induction l1 as [|a l1 IH]; intros exc h; [done|].
  rewrite <- app_comm_cons, !update_failure_counts_loop_cons. apply IH.
Qed.

Lemma update_failure_counts_app l1 l2 h :
  update_failure_counts (l1 ++ l2) h
  = ((update_failure_counts l1 h).1
       ++ (update_failure_counts l2 (update_failure_counts l1 h).2).1,
     (update_failure_counts l2 (update_failure_counts l1 h).2).2).
Proof.
  unfold update_failure_counts.
  by rewrite update_failure_counts_loop_app, update_failure_counts_loop_acc.
Qed.

(** Which instances end up in the returned list. *)
Lemma update_failure_counts_loop_elem_of l exc h a :
  a ∈ (update_failure_counts_loop l exc h).1
  ↔ a ∈ exc
    ∨ (a ∈ l
       ∧ _max_per_instance_failures (self h)
         < failure_count (self h) a + occurrences a l).
Proof.
  revert exc h. induction l as [|b l IH]; intros exc h.
  - simpl. split; [by left|]. intros [?|[?%elem_of_nil ?]]; done.
  - rewrite update_failure_counts_loop_cons, IH. clear IH.
    rewrite failure_count_record_failure. simpl occurrences.
    simpl _max_per_instance_failures.
    pose proof (occurrences_nonneg a l) as Hge.
    pose proof (occurrences_pos a l) as Hpos.
    rewrite elem_of_cons.
    destruct (Z.gtb_spec (failure_count (self h) b + 1)
                (_max_per_instance_failures (self h))) as [Hgt|Hle];
      [rewrite elem_of_app, list_elem_of_singleton|];
      destruct (decide (b = a)) as [->|Hne]; try rewrite decide_True by done;
      try rewrite decide_False by done.
    + split; [|intros [?|[_ ?]]; [by left; left|by left; right]].
      intros [[?|_]|[? ?]]; [by left|right; split; [by left|lia]..].
    + split.
      * intros [[?|?]|[? ?]]; [by left|congruence|].
        right. split; [by right|lia].
      * intros [?|[[?|?] ?]]; [by left; left|congruence|].
        right. split; [done|lia].
    + split.
      * intros [?|[? ?]]; [by left|]. right. split; [by left|lia].
      * intros [?|[_ ?]]; [by left|]. right. split; [apply Hpos|]; lia.
    + split.
      * intros [?|[? ?]]; [by left|]. right. split; [by right|lia].
      * intros [?|[[?|?] ?]]; [by left|congruence|].
        right. split; [done|lia].
Qed.

(** How often an instance is returned: once for every occurrence after
    which its counter is above the limit. *)
Lemma update_failure_counts_loop_occurrences l exc h a :
  occurrences a (update_failure_counts_loop l exc h).1
  = occurrences a exc
    + Z.max 0 (Z.min (occurrences a l)
                 (failure_count (self h) a + occurrences a l
                  - _max_per_instance_failures (self h))).
Proof.
  revert exc h. induction l as [|b l IH]; intros exc h.
  - simpl. lia.
  - rewrite update_failure_counts_loop_cons, IH. clear IH.
    rewrite failure_count_record_failure. simpl occurrences.
    simpl _max_per_instance_failures.
    pose proof (occurrences_nonneg a l) as Hge.
    destruct (Z.gtb_spec (failure_count (self h) b + 1)
                (_max_per_instance_failures (self h))) as [Hgt|Hle];
      [rewrite occurrences_app; simpl occurrences|];
      destruct (decide (b = a)) as [->|Hne]; lia.
Qed.

Lemma take_S_length_app (pre : list K) a l :
  take (S (length pre)) (pre ++ a :: l) = pre ++ [a].
Proof. induction pre as [|b pre IH]; simpl; [done|]. by f_equal. Qed.

(** The returned list, position by position.  [pre] is the part of the batch
    already processed and [ft0] the accountant before the call. *)
Lemma update_failure_counts_loop_positions (ft0 : t K) pre l exc h :
  _max_per_instance_failures (self h) = _max_per_instance_failures ft0 →
  (∀ a, failure_count (self h) a = failure_count ft0 a + occurrences a pre) →
  (update_failure_counts_loop l exc h).1
  = exc ++ (filter (λ ia, Is_true (over_limit_at ft0 (pre ++ l) ia.1 ia.2))
              (imap (λ i a, ((length pre + i)%nat, a)) l)).*2.
Proof.
  revert pre exc h. induction l as [|a l IH]; intros pre exc h Hmp Hcnt.
  - simpl. by rewrite app_nil_r.
  - rewrite update_failure_counts_loop_cons.
    rewrite (IH (pre ++ [a])); clear IH.
    + assert (over_limit_at ft0 (pre ++ a :: l) (length pre + 0) a
              = (failure_count (self h) a + 1
                   >? _max_per_instance_failures (self h))) as Hhead.
      { unfold over_limit_at.
        rewrite Nat.add_0_r, take_S_length_app, occurrences_app, Hmp, Hcnt.
        simpl occurrences. rewrite decide_True by done. f_equal. lia. }
      rewrite imap_cons, filter_cons; simpl fst; simpl snd. rewrite Hhead.
      rewrite <- (app_assoc pre [a] l). change ([a] ++ l) with (a :: l).
      assert (imap (λ i b, ((length (pre ++ [a]) + i)%nat, b)) l
              = imap ((λ i b, ((length pre + i)%nat, b)) ∘ S) l) as ->.
      { apply imap_ext. intros i b _. simpl. rewrite length_app. simpl.
        f_equal. lia. }
      destruct (failure_count (self h) a + 1
                  >? _max_per_instance_failures (self h)) eqn:Hgt.
      * rewrite decide_True by done. rewrite fmap_cons; simpl.
        by rewrite <- app_assoc.
      * by rewrite decide_False by (by intros []).
    + done.
    + intros b. rewrite failure_count_record_failure, Hcnt, occurrences_app.
      simpl occurrences. lia.
Qed.

(** No key is ever removed, and every stored counter stays at least 1. *)
Lemma update_failure_counts_loop_lookup l exc h a :
  is_Some (_failures_by_instance (self h) !! a) →
  is_Some (_failures_by_instance
             (self (update_failure_counts_loop l exc h).2) !! a).
Proof.
  revert exc h. induction l as [|b l IH]; intros exc h Hin; [done|].
  rewrite update_failure_counts_loop_cons. apply IH.
  unfold record_failure; simpl. rewrite lookup_insert_is_Some.
  destruct (decide (b = a)); auto.
Qed.

Lemma update_failure_counts_loop_positive l exc h :
  counters_positive (self h) →
  counters_positive (self (update_failure_counts_loop l exc h).2).
Proof.
  revert exc h. induction l as [|b l IH]; intros exc h Hpos; [done|].
  rewrite update_failure_counts_loop_cons. apply IH.
  intros k c. unfold record_failure, failure_count; simpl.
  rewrite lookup_insert_Some. intros [[<- <-]|[_ Hk]]; [|by eapply Hpos].
  destruct (_failures_by_instance (self h) !! b) as [c|] eqn:Hb; simpl;
    [|lia].
  apply Hpos in Hb. lia.
Qed.

End Loop.

(** ** The query [is_failed_update] *)

Section Query.

Context {K : Type} `{Countable K}.

Implicit Types (h : Heap K) (d : gmap K Z).

Lemma foldl_b2z_shift (bs : list bool) (acc : Z) :
  foldl (λ acc b, acc + Z.b2z b) acc bs
  = acc + foldl (λ acc b, acc + Z.b2z b) 0 bs.
Proof.
  revert acc. induction bs as [|b bs IH]; intros acc; simpl; [lia|].
  rewrite (IH (acc + Z.b2z b)), (IH (0 + Z.b2z b)). lia.
Qed.

Lemma builtin_sum_cons b bs :
  builtin_sum (b :: bs) = Z.b2z b + builtin_sum bs.
Proof. unfold builtin_sum; simpl. by rewrite foldl_b2z_shift. Qed.

Lemma builtin_sum_Permutation bs1 bs2 :
  bs1 ≡ₚ bs2 → builtin_sum bs1 = builtin_sum bs2.
Proof.
  induction 1 as [|b bs1 bs2 _ IH|b1 b2 bs|bs1 bs2 bs3 _ IH1 _ IH2].
  - done.
  - by rewrite !builtin_sum_cons, IH.
  - rewrite !builtin_sum_cons. lia.
  - congruence.
Qed.

(** The sum of the comparisons counts the entries above the limit. *)
Lemma builtin_sum_values mp d :
  builtin_sum (map (λ count, count >? mp) (values d))
  = Z.of_nat (size (filter (λ kc : K * Z, mp < kc.2) d)).
Proof.
  unfold values, items.
  induction d as [|i x d Hi IH] using map_ind.
  - by rewrite map_to_list_empty, map_filter_empty, map_size_empty.
  - rewrite (builtin_sum_Permutation _
               (map (λ count, count >? mp) ((i, x) :: map_to_list d).*2)).
    2:{ apply fmap_Permutation, fmap_Permutation.
        by apply map_to_list_insert. }
    rewrite fmap_cons; simpl. rewrite builtin_sum_cons.
    fold (fmap (M:=list) (@snd K Z)) in IH |- *. rewrite IH.
    rewrite map_filter_insert; simpl.
    destruct (Z.gtb_spec x mp) as [Hgt|Hle].
    + rewrite decide_True by done.
      rewrite map_size_insert_None; [simpl; lia|].
      apply map_lookup_filter_None. by left.
    + rewrite decide_False by lia. rewrite delete_id by done. simpl. lia.
Qed.

Lemma _exceeded_instance_fail_count_spec h :
  _exceeded_instance_fail_count h = (exceeded_count (self h), h).
Proof.
  unfold _exceeded_instance_fail_count, bind, get_self, ret, exceeded_count,
    over_limit.
  by rewrite builtin_sum_values.
Qed.

(** Logging does not touch the object. *)
Lemma log_instance_failures_self its h :
  self (log_instance_failures its h).2 = self h.
Proof.
  revert h. induction its as [|[i c] its IH]; intros h; [done|].
  simpl. unfold bind, get_self.
  destruct (c >? _max_per_instance_failures (self h)); simpl; by rewrite IH.
Qed.

Lemma is_failed_update_result h :
  (is_failed_update h).1
  = (exceeded_count (self h) >? _max_total_failures (self h)).
Proof.
  unfold is_failed_update, bind at 1.
  rewrite _exceeded_instance_fail_count_spec.
  unfold bind, get_self, ret, log_error.
  destruct (exceeded_count (self h) >? _max_total_failures (self h)); simpl;
    [|done].
  by destruct (log_instance_failures _ _).
Qed.

Lemma is_failed_update_self h : self (is_failed_update h).2 = self h.
Proof.
  unfold is_failed_update, bind at 1.
  rewrite _exceeded_instance_fail_count_spec.
  unfold bind, get_self, ret, log_error.
  destruct (exceeded_count (self h) >? _max_total_failures (self h)); simpl;
    [|done].
  match goal with
  | |- context [log_instance_failures ?its ?h'] =>
      pose proof (log_instance_failures_self its h') as Hlog;
      destruct (log_instance_failures its h')
  end.
  done.
Qed.

(** What holds of every accountant a client can hold. *)
Lemma reachable_counters_positive (ft : t K) :
  reachable ft → counters_positive ft.
Proof.
  induction 1 as [mp mt|ft log l _ IH|ft log _ IH].
  - intros k c. unfold __init__; simpl. by rewrite lookup_empty.
  - by apply update_failure_counts_loop_positive.
  - by rewrite is_failed_update_self.
Qed.

Lemma reachable_failure_count_nonneg (ft : t K) k :
  reachable ft → 0 ≤ failure_count ft k.
Proof.
  intros Hpos%reachable_counters_positive. unfold failure_count.
  destruct (_failures_by_instance ft !! k) as [c|] eqn:Hk; simpl; [|lia].
  apply Hpos in Hk. lia.
Qed.

End Query.

(** ** Properties of the accountant *)

Section Properties.

Context {K : Type} `{Countable K}.

Implicit Types (h : Heap K) (l : list K) (a : K).

(** C1, as amended: after all increments of a call to
    [update_failure_counts], the returned list contains exactly the instances
    that occur in this call's batch and whose current counter is strictly
    greater than the per-instance limit.  An instance that is over the limit
    but absent from the batch is not returned. *)
Theorem update_failure_counts_returns_batch_over_limit l h a :
  a ∈ (update_failure_counts l h).1
  ↔ a ∈ l
    ∧ _max_per_instance_failures (self (update_failure_counts l h).2)
      < failure_count (self (update_failure_counts l h).2) a.
Proof.
  unfold update_failure_counts.
  destruct (update_failure_counts_loop_frame l [] h) as (-> & _ & _).
  rewrite update_failure_counts_loop_count, update_failure_counts_loop_elem_of.
  split; [intros [?%elem_of_nil|?]; done|by right].
Qed.

(** C2: [is_failed_update] answers true exactly when the number of distinct
    instances whose stored counter is strictly greater than the per-instance
    limit is strictly greater than the total limit. *)
Theorem is_failed_update_iff h :
  ((is_failed_update h).1 = true
   ↔ _max_total_failures (self h) < exceeded_count (self h))
  ∧ (∀ k, is_Some (over_limit (self h) !! k)
          ↔ ∃ c, _failures_by_instance (self h) !! k = Some c
                 ∧ _max_per_instance_failures (self h) < c).
Proof.
  split.
  - rewrite is_failed_update_result.
    destruct (Z.gtb_spec (exceeded_count (self h))
                (_max_total_failures (self h))); split; (done || lia).
  - intros k. unfold over_limit, is_Some.
    setoid_rewrite map_lookup_filter_Some. simpl. naive_solver.
Qed.

(** C4: every occurrence of an identifier in the batch adds one to its
    counter; in particular a batch [A, A] adds two, and leaves the same
    counter map as two calls with [A]. *)
Theorem update_failure_counts_counts_each_occurrence h a :
  failure_count (self (update_failure_counts [a; a] h).2) a
    = failure_count (self h) a + 2
  ∧ _failures_by_instance (self (update_failure_counts [a; a] h).2)
    = _failures_by_instance
        (self (update_failure_counts [a]
                 (update_failure_counts [a] h).2).2)
  ∧ ∀ l b,
      failure_count (self (update_failure_counts l h).2) b
      = failure_count (self h) b + occurrences b l.
Proof.
  split_and!.
  - unfold update_failure_counts.
    rewrite update_failure_counts_loop_count. simpl.
    rewrite decide_True by done. lia.
  - change [a; a] with ([a] ++ [a]).
    by rewrite update_failure_counts_app.
  - intros l b. apply update_failure_counts_loop_count.
Qed.

(** C5: the per-instance comparison is strict.  With a limit of 1, an
    instance failing for the first time is not returned, and it is returned
    when it fails a second time, in the same call or in a later one; with a
    limit of 0 the first failure already returns it. *)
Theorem per_instance_limit_is_strict h l a :
  (_max_per_instance_failures (self h) = 1 →
   failure_count (self h) a = 0 → occurrences a l = 1 →
   a ∉ (update_failure_counts l h).1)
  ∧ (_max_per_instance_failures (self h) = 1 →
     failure_count (self h) a = 0 → 2 ≤ occurrences a l →
     a ∈ (update_failure_counts l h).1)
  ∧ (_max_per_instance_failures (self h) = 1 →
     1 ≤ failure_count (self h) a → a ∈ l →
     a ∈ (update_failure_counts l h).1)
  ∧ (_max_per_instance_failures (self h) = 0 →
     0 ≤ failure_count (self h) a → a ∈ l →
     a ∈ (update_failure_counts l h).1).
Proof.
  unfold update_failure_counts.
  pose proof (occurrences_pos a l) as Hpos.
  rewrite update_failure_counts_loop_elem_of.
  split_and!; intros Hmp Hcnt Hocc.
  - intros [?%elem_of_nil|[_ ?]]; [done|lia].
  - right. split; [apply Hpos|]; lia.
  - right. apply Hpos in Hocc. split; [apply Hpos|]; lia.
  - right. apply Hpos in Hocc. split; [apply Hpos|]; lia.
Qed.

(** C6: a call with an empty batch returns an empty list, leaves the
    accountant (and the log) as it was, and so does not change the answer of
    [is_failed_update]. *)
Theorem update_failure_counts_nil h :
  (update_failure_counts [] h).1 = []
  ∧ (update_failure_counts [] h).2 = h
  ∧ (is_failed_update (update_failure_counts [] h).2).1
    = (is_failed_update h).1.
Proof. done. Qed.

(** C7: [is_failed_update] leaves the counter map and both limits as they
    were, and asking again, any number of times, gives the same answer. *)
Theorem is_failed_update_keeps_state h :
  _failures_by_instance (self (is_failed_update h).2)
    = _failures_by_instance (self h)
  ∧ _max_per_instance_failures (self (is_failed_update h).2)
    = _max_per_instance_failures (self h)
  ∧ _max_total_failures (self (is_failed_update h).2)
    = _max_total_failures (self h)
  ∧ ∀ n : nat,
      (is_failed_update
         (Nat.iter n (λ h', (is_failed_update h').2) h)).1
      = (is_failed_update h).1.
Proof.
  rewrite is_failed_update_self. split_and!; try done.
  intros n. rewrite !is_failed_update_result.
  assert (self (Nat.iter n (λ h', (is_failed_update h').2) h) = self h)
    as ->; [|done].
  induction n as [|n IH]; [done|].
  simpl. by rewrite is_failed_update_self.
Qed.

(** C8: counters start at zero on first reference, no method lowers or
    removes one, and in every accountant a client can hold an instance with no
    recorded failure is absent from the counter map, so it is counted neither
    by [_exceeded_instance_fail_count] nor in the list returned by
    [update_failure_counts]. *)
Theorem failure_counters_invariant :
  (∀ mp mt k, failure_count (__init__ (K:=K) mp mt) k = 0)
  ∧ (∀ k (d : gmap K Z), d !! k = None → (defaultdict_getitem k d).1 = 0)
  ∧ (∀ h l k,
       failure_count (self h) k
         ≤ failure_count (self (update_failure_counts l h).2) k
       ∧ (is_Some (_failures_by_instance (self h) !! k) →
          is_Some (_failures_by_instance
                     (self (update_failure_counts l h).2) !! k)))
  ∧ (∀ h, _failures_by_instance (self (is_failed_update h).2)
          = _failures_by_instance (self h))
  ∧ (∀ h k,
       reachable (self h) → failure_count (self h) k = 0 →
       _failures_by_instance (self h) !! k = None
       ∧ over_limit (self h) !! k = None
       ∧ (_exceeded_instance_fail_count
            (mkHeap (mk (_max_per_instance_failures (self h))
                        (_max_total_failures (self h))
                        (delete k (_failures_by_instance (self h))))
                    (error_log h))).1
         = (_exceeded_instance_fail_count h).1)
  ∧ (∀ h l k,
       reachable (self h) →
       failure_count (self (update_failure_counts l h).2) k = 0 →
       k ∉ (update_failure_counts l h).1).
Proof.
  assert (∀ (ft : t K) k, reachable ft → failure_count ft k = 0 →
            _failures_by_instance ft !! k = None) as Habsent.
  { intros ft k Hpos%reachable_counters_positive. unfold failure_count.
    destruct (_failures_by_instance ft !! k) as [c|] eqn:Hk; [|done].
    apply Hpos in Hk. simpl. lia. }
  split_and!.
  - intros mp mt k. unfold failure_count, __init__; simpl.
    by rewrite lookup_empty.
  - intros k d Hk. unfold defaultdict_getitem. by rewrite Hk.
  - intros h l k. unfold update_failure_counts. split.
    + rewrite update_failure_counts_loop_count.
      pose proof (occurrences_nonneg k l). lia.
    + apply update_failure_counts_loop_lookup.
  - intros h. by rewrite is_failed_update_self.
  - intros h k Hreach Hzero. pose proof (Habsent _ _ Hreach Hzero) as Hk.
    split_and!; [done| |].
    + unfold over_limit. apply map_lookup_filter_None. by left.
    + rewrite delete_id by done. by destruct h as [[mp mt d] log].
  - intros h l k Hreach Hzero Hin.
    unfold update_failure_counts in Hzero, Hin.
    apply update_failure_counts_loop_elem_of in Hin
      as [?%elem_of_nil|[Hin%occurrences_pos _]]; [done|].
    rewrite update_failure_counts_loop_count in Hzero.
    pose proof (reachable_failure_count_nonneg (self h) k Hreach). lia.
Qed.

(** C9: with a negative total limit a fresh accountant already reports the
    update as failed, since zero over-limit instances is more than the
    limit. *)
Theorem is_failed_update_fresh_negative_limit
    (mp mt : Z) (log : list (log_record K)) :
  mt < 0 → (is_failed_update (mkHeap (__init__ mp mt) log)).1 = true.
Proof.
  intros Hneg. rewrite is_failed_update_result.
  unfold exceeded_count, over_limit, __init__; simpl.
  rewrite map_filter_empty, map_size_empty. simpl.
  apply Z.gtb_lt. lia.
Qed.

(** C10: the returned list is the batch restricted to the positions after
    which the counter of the instance at that position is above the limit, in
    batch order and with repetitions.  So if an instance occurs [k] times and
    its counter is above the limit after its [j]-th occurrence, it is returned
    for each occurrence from the [j]-th to the [k]-th: at least [k - j + 1]
    times, and exactly that often when [j] is the first such occurrence. *)
Theorem update_failure_counts_returns_each_occurrence l h :
  (update_failure_counts l h).1 = occurrences_over_limit (self h) l
  ∧ (update_failure_counts l h).1 `sublist_of` l
  ∧ ∀ a j,
      1 ≤ j ≤ occurrences a l →
      _max_per_instance_failures (self h) < failure_count (self h) a + j →
      occurrences a l - j + 1
        ≤ occurrences a (update_failure_counts l h).1
      ∧ (failure_count (self h) a + j - 1
           ≤ _max_per_instance_failures (self h) →
         occurrences a (update_failure_counts l h).1
         = occurrences a l - j + 1).
Proof.
  assert ((update_failure_counts l h).1 = occurrences_over_limit (self h) l)
    as Heq.
  { unfold update_failure_counts, occurrences_over_limit.
    rewrite (update_failure_counts_loop_positions (self h) [] l [] h);
      [done|done|].
    intros a. simpl. lia. }
  split_and!; [done| |].
  - rewrite Heq. unfold occurrences_over_limit.
    transitivity ((imap pair l).*2).
    + apply fmap_sublist, sublist_filter.
    + rewrite fmap_imap.
      rewrite (imap_ext _ (const id) l) by done.
      by rewrite imap_const, list_fmap_id.
  - intros a j Hj Hgt. unfold update_failure_counts.
    rewrite update_failure_counts_loop_occurrences. simpl occurrences.
    lia.
Qed.

End Properties.

(** ** The properties at concrete accountants, with integer identifiers *)

(** The scenario with both limits at 1 and batches [2, 5], [2], [5]: the
    third call returns [5] only, although instance 2 is over the limit. *)
Lemma update_failure_counts_omits_untouched_instance :
  let h0 := mkHeap (__init__ (K:=Z) 1 1) [] in
  let h1 := (update_failure_counts [2; 5] h0).2 in
  let h2 := (update_failure_counts [2] h1).2 in
  let r3 := update_failure_counts [5] h2 in
  ¬ (∀ a : Z,
       is_Some (_failures_by_instance (self r3.2) !! a) →
       _max_per_instance_failures (self r3.2) < failure_count (self r3.2) a →
       a ∈ r3.1).
Proof.
  intros h0 h1 h2 r3 Hall.
  assert (r3.1 = [5]) as Hret by (vm_compute; reflexivity).
  specialize (Hall 2). rewrite Hret in Hall.
  apply list_elem_of_singleton in Hall; [lia| |].
  - exists 2. vm_compute. reflexivity.
  - vm_compute. reflexivity.
Qed.

(** With a limit of 0, after [2, 5] the batch [5, 3] returns 5 but not 2. *)
Lemma update_failure_counts_returns_batch_over_limit_witness :
  let h1 := (update_failure_counts [2; 5] (mkHeap (__init__ (K:=Z) 0 1) [])).2
  in 5 ∈ (update_failure_counts [5; 3] h1).1
     ∧ ¬ 2 ∈ (update_failure_counts [5; 3] h1).1.
Proof.
  intros h1. split.
  - apply (update_failure_counts_returns_batch_over_limit [5; 3] h1 5).
    split; [by left|vm_compute; reflexivity].
  - intros [Hin _]%(update_failure_counts_returns_batch_over_limit
                       [5; 3] h1 2).
    apply elem_of_cons in Hin as [?|Hin]; [lia|].
    apply list_elem_of_singleton in Hin. lia.
Defined.

(** One instance over the limit is not more than a total limit of 1; two
    are. *)
Lemma is_failed_update_iff_witness :
  let h0 := mkHeap (__init__ (K:=Z) 1 1) [] in
  let h2 := (update_failure_counts [2; 5; 2] h0).2 in
  let h3 := (update_failure_counts [5] h2).2 in
  (is_failed_update h2).1 = false ∧ (is_failed_update h3).1 = true.
Proof.
  intros h0 h2 h3. split.
  - apply not_true_is_false.
    intros Hlt%(proj1 (is_failed_update_iff h2)).
    vm_compute in Hlt. discriminate.
  - apply (proj1 (is_failed_update_iff h3)). vm_compute. reflexivity.
Defined.

(** Instance 7 under a limit of 1 and under a limit of 0. *)
Lemma per_instance_limit_is_strict_witness :
  let h1 := mkHeap (__init__ (K:=Z) 1 0) [] in
  let h0 := mkHeap (__init__ (K:=Z) 0 0) [] in
  ¬ 7 ∈ (update_failure_counts [7] h1).1
  ∧ 7 ∈ (update_failure_counts [7; 7] h1).1
  ∧ 7 ∈ (update_failure_counts [7] (update_failure_counts [7] h1).2).1
  ∧ 7 ∈ (update_failure_counts [7] h0).1.
Proof.
  intros h1 h0. split_and!.
  - apply (proj1 (per_instance_limit_is_strict h1 [7] 7)); reflexivity.
  - apply (proj1 (proj2 (per_instance_limit_is_strict h1 [7; 7] 7)));
      [reflexivity|reflexivity|vm_compute; discriminate].
  - apply (proj1 (proj2 (proj2
             (per_instance_limit_is_strict
                (update_failure_counts [7] h1).2 [7] 7))));
      [reflexivity|vm_compute; discriminate|by left].
  - apply (proj2 (proj2 (proj2 (per_instance_limit_is_strict h0 [7] 7))));
      [reflexivity|vm_compute; discriminate|by left].
Defined.

(** Even with a per-instance limit of -1, an instance that never failed is
    not over the limit. *)
Lemma failure_counters_invariant_witness :
  let h := mkHeap (__init__ (K:=Z) (-1) 0) [] in
  over_limit (self h) !! 3 = None
  ∧ ¬ 3 ∈ (update_failure_counts [4] h).1.
Proof.
  intros h.
  destruct (failure_counters_invariant (K:=Z)) as (_ & _ & _ & _ & Hq & Hu).
  split.
  - apply (Hq h 3); [apply reachable_init|reflexivity].
  - apply (Hu h [4] 3); [apply reachable_init|reflexivity].
Defined.

(** A fresh accountant with a total limit of -1. *)
Lemma is_failed_update_fresh_negative_limit_witness :
  -1 < 0 ∧ (is_failed_update (mkHeap (__init__ (K:=Z) 0 (-1)) [])).1 = true.
Proof.
  split; [lia|]. apply is_failed_update_fresh_negative_limit. lia.
Defined.

(** Instance 7 occurs three times under a limit of 1: it is returned for its
    second and third occurrence. *)
Lemma update_failure_counts_returns_each_occurrence_witness :
  let h := mkHeap (__init__ (K:=Z) 1 1) [] in
  (update_failure_counts [7; 3; 7; 7] h).1 = [7; 7]
  ∧ occurrences 7 (update_failure_counts [7; 3; 7; 7] h).1 = 3 - 2 + 1.
Proof.
  intros h.
  destruct (update_failure_counts_returns_each_occurrence [7; 3; 7; 7] h)
    as (Heq & _ & Hocc).
  split.
  - rewrite Heq. vm_compute. reflexivity.
  - apply (Hocc 7 2); [vm_compute; split; discriminate|reflexivity|].
    vm_compute. discriminate.
Defined.

(** ** A call and the counter map *)

Section Batches.

Context {K : Type} `{Countable K}.

Implicit Types (h : Heap K) (l exc : list K) (a b k : K).

Lemma occurrences_not_elem_of a l : a ∉ l → occurrences a l = 0.
Proof.
  intros Hnin. pose proof (occurrences_nonneg a l).
  destruct (decide (0 < occurrences a l)) as [Hpos%occurrences_pos|]; [done|].
  lia.
Qed.

(** The entry of every instance after the loop. *)
Lemma update_failure_counts_loop_lookup_eq l exc h k :
  _failures_by_instance (self (update_failure_counts_loop l exc h).2) !! k
  = if decide (k ∈ l)
    then Some (failure_count (self h) k + occurrences k l)
    else _failures_by_instance (self h) !! k.
Proof.
  revert exc h. induction l as [|b l IH]; intros exc h.
  - done.
  - rewrite update_failure_counts_loop_cons, IH. clear IH.
    rewrite failure_count_record_failure. simpl occurrences.
    unfold record_failure; simpl _failures_by_instance.
    destruct (decide (b = k)) as [->|Hne].
    + rewrite (decide_True (P:=k ∈ k :: l)) by (by left).
      rewrite lookup_insert_eq.
      destruct (decide (k ∈ l)) as [Hin|Hnin]; f_equal; [lia|].
      rewrite occurrences_not_elem_of by done. lia.
    + rewrite lookup_insert_ne by done.
      destruct (decide (k ∈ l)) as [Hin|Hnin].
      * rewrite decide_True by (by right). f_equal. lia.
      * rewrite decide_False; [done|].
        intros [?|?]%elem_of_cons; congruence.
Qed.

(** The accumulator and the log have no influence on the object. *)
Lemma update_failure_counts_loop_self l exc1 exc2 (ft : t K) log1 log2 :
  self (update_failure_counts_loop l exc1 (mkHeap ft log1)).2
  = self (update_failure_counts_loop l exc2 (mkHeap ft log2)).2.
Proof.
  revert exc1 exc2 ft log1 log2.
  induction l as [|b l IH]; intros exc1 exc2 ft log1 log2; [done|].
  rewrite !update_failure_counts_loop_cons. apply IH.
Qed.



(** The over-limit instances after a call are those from before the call and
    the returned ones. *)
Lemma over_limit_update_failure_counts l h k :
  is_Some (over_limit (self (update_failure_counts l h).2) !! k)
  ↔ is_Some (over_limit (self h) !! k) ∨ k ∈ (update_failure_counts l h).1.
Proof.
  unfold over_limit, is_Some, update_failure_counts.
  setoid_rewrite map_lookup_filter_Some. simpl.
  destruct (update_failure_counts_loop_frame l [] h) as (-> & _ & _).
  rewrite update_failure_counts_loop_elem_of.
  setoid_rewrite update_failure_counts_loop_lookup_eq.
  pose proof (occurrences_nonneg k l) as Hge.
  destruct (decide (k ∈ l)) as [Hin|Hnin].
  - split.
    + intros (c & [= <-] & Hc). right. right. done.
    + intros [(c & Hk & Hc)|[?%elem_of_nil|[_ Hc]]]; [|done|by eauto].
      eexists. split; [done|]. unfold failure_count. rewrite Hk. simpl. lia.
  - split; [by left|].
    intros [?|[?%elem_of_nil|[? _]]]; done.
Qed.

Lemma exceeded_count_update_failure_counts_le l h :
  exceeded_count (self h)
    ≤ exceeded_count (self (update_failure_counts l h).2).
Proof.
  unfold exceeded_count. apply inj_le.
  rewrite <- !(size_dom (D:=gset K)). apply subseteq_size.
  intros k. rewrite !elem_of_dom, over_limit_update_failure_counts. by left.
Qed.

(** When every instance of the batch is already at its limit, every position
    of the batch is returned. *)
Lemma update_failure_counts_loop_all l exc h :
  (∀ a, a ∈ l → _max_per_instance_failures (self h) ≤ failure_count (self h) a) →
  (update_failure_counts_loop l exc h).1 = exc ++ l.
Proof.
  revert exc h. induction l as [|b l IH]; intros exc h Hall.
  - simpl. by rewrite app_nil_r.
  - rewrite update_failure_counts_loop_cons.
    pose proof (Hall b ltac:(by left)) as Hb.
    destruct (Z.gtb_spec (failure_count (self h) b + 1)
                (_max_per_instance_failures (self h))) as [_|?]; [|lia].
    rewrite IH.
    + by rewrite <- app_assoc.
    + intros a Ha. rewrite failure_count_record_failure.
      simpl _max_per_instance_failures.
      pose proof (Hall a ltac:(by right)). case_decide; lia.
Qed.

(** Each iteration puts one more failure on record. *)
Lemma recorded_failures_record_failure a h :
  recorded_failures (self (record_failure a h))
  = recorded_failures (self h) + 1.
Proof.
  unfold recorded_failures, record_failure, failure_count; simpl.
  destruct (_failures_by_instance (self h) !! a) as [c|] eqn:Ha; simpl.
  - rewrite (map_fold_delete_L _ _ a c (_failures_by_instance (self h)));
      [|intros; lia|done].
    rewrite <- insert_delete_eq.
    rewrite map_fold_insert_L; [lia|intros; lia|].
    apply lookup_delete_eq.
  - rewrite map_fold_insert_L; [lia|intros; lia|done].
Qed.

Lemma recorded_failures_update_failure_counts_loop l exc h :
  recorded_failures (self (update_failure_counts_loop l exc h).2)
  = recorded_failures (self h) + Z.of_nat (length l).
Proof.
  revert exc h. induction l as [|b l IH]; intros exc h.
  - simpl. lia.
  - rewrite update_failure_counts_loop_cons, IH,
      recorded_failures_record_failure.
    simpl length. lia.
Qed.

(** An instance over a non-negative limit accounts for more failures than
    the limit. *)
Lemma recorded_failures_exceeded_count (ft : t K) :
  (∀ k c, _failures_by_instance ft !! k = Some c → 0 ≤ c) →
  0 ≤ _max_per_instance_failures ft →
  (_max_per_instance_failures ft + 1) * exceeded_count ft
    ≤ recorded_failures ft.
Proof.
  destruct ft as [mp mt d].
  unfold exceeded_count, over_limit, recorded_failures; simpl.
  intros Hnonneg Hmp.
  induction d as [|i x d Hi IH] using map_ind.
  - rewrite map_filter_empty, map_size_empty, map_fold_empty. simpl. lia.
  - rewrite map_fold_insert_L; [|intros; lia|done].
    assert (0 ≤ x) as Hx by (apply (Hnonneg i); apply lookup_insert_eq).
    assert ((mp + 1) * Z.of_nat (size (filter (λ kc : K * Z, mp < kc.2) d))
            ≤ map_fold (λ _ count acc, count + acc) 0 d) as IH'.
    { apply IH. intros k c Hk. apply (Hnonneg k).
      rewrite lookup_insert_ne; [done|]. intros ->. congruence. }
    rewrite map_filter_insert; simpl.
    destruct (decide (mp < x)) as [Hlt|Hge].
    + rewrite map_size_insert_None
        by (apply map_lookup_filter_None; by left).
      lia.
    + rewrite delete_id by done. lia.
Qed.

End Batches.

(** ** The log of [is_failed_update] and the accountants that can arise *)

Section Diagnostics.

Context {K : Type} `{Countable K}.

Implicit Types (h : Heap K) (l : list K) (k : K).





(** Every accountant a client can hold is a fresh one after a single call. *)
Lemma reachable_single_batch (ft : t K) :
  reachable ft →
  ∃ mp mt l,
    ft = self (update_failure_counts l (mkHeap (__init__ mp mt) [])).2.
Proof.
  induction 1 as [mp mt|ft log l0 _ (mp & mt & l1 & IH)
                 |ft log _ (mp & mt & l1 & IH)].
  - by exists mp, mt, [].
  - exists mp, mt, (l1 ++ l0). rewrite update_failure_counts_app; simpl.
    destruct (update_failure_counts l1 _) as [r1 [ft1 log1]];
      simpl in IH; subst ft1; simpl.
    apply update_failure_counts_loop_self.
  - exists mp, mt, l1. by rewrite is_failed_update_self.
Qed.

(** With a per-instance limit of 0 or less, every instance on record is over
    the limit. *)
Lemma over_limit_zero_tolerance (ft : t K) :
  reachable ft → _max_per_instance_failures ft ≤ 0 →
  over_limit ft = _failures_by_instance ft.
Proof.
  intros Hpos%reachable_counters_positive Hmp. unfold over_limit.
  apply map_filter_id. intros k c Hk%Hpos. simpl. lia.
Qed.

End Diagnostics.

(** ** Further properties of the accountant *)

Section Accounting.

Context {K : Type} `{Countable K}.

Implicit Types (h : Heap K) (l : list K) (a k : K).

(** X1: a call to [update_failure_counts] touches only the entries of the
    instances in its batch.  Such an entry ends up holding the old counter
    (zero when there was none) plus the number of occurrences; every other
    entry, present or absent, both limits and the log are as before. *)
Theorem update_failure_counts_touches_only_batch l h :
  (∀ k,
     _failures_by_instance (self (update_failure_counts l h).2) !! k
     = if decide (k ∈ l)
       then Some (failure_count (self h) k + occurrences k l)
       else _failures_by_instance (self h) !! k)
  ∧ _max_per_instance_failures (self (update_failure_counts l h).2)
    = _max_per_instance_failures (self h)
  ∧ _max_total_failures (self (update_failure_counts l h).2)
    = _max_total_failures (self h)
  ∧ error_log (update_failure_counts l h).2 = error_log h.
Proof.
  split; [intros k; apply update_failure_counts_loop_lookup_eq|].
  apply update_failure_counts_loop_frame.
Qed.


(** X3: the set of over-limit instances after a call is the set from before
    the call together with the returned instances. *)
Theorem over_limit_after_update_failure_counts l h :
  dom (over_limit (self (update_failure_counts l h).2))
  =@{gset K} dom (over_limit (self h))
             ∪ list_to_set (update_failure_counts l h).1.
Proof.
  apply set_eq. intros k.
  rewrite elem_of_union, elem_of_list_to_set, !elem_of_dom.
  apply over_limit_update_failure_counts.
Qed.

(** X4: a failed update stays failed.  Once [is_failed_update] has answered
    true, it answers true after any further call to
    [update_failure_counts]. *)
Theorem is_failed_update_latches l h :
  (is_failed_update h).1 = true →
  (is_failed_update (update_failure_counts l h).2).1 = true.
Proof.
  rewrite !is_failed_update_result. intros Hfailed%Z.gtb_lt.
  apply Z.gtb_lt.
  destruct (update_failure_counts_loop_frame l [] h) as (_ & Hmt & _).
  unfold update_failure_counts. rewrite Hmt.
  pose proof (exceeded_count_update_failure_counts_le l h) as Hle.
  unfold update_failure_counts in Hle. lia.
Qed.

(** X5: a call that returns the empty list does not change the answer of
    [is_failed_update]. *)
Theorem is_failed_update_unchanged_when_nothing_returned l h :
  (update_failure_counts l h).1 = [] →
  (is_failed_update (update_failure_counts l h).2).1
  = (is_failed_update h).1.
Proof.
  intros Hnil. rewrite !is_failed_update_result.
  assert (exceeded_count (self (update_failure_counts l h).2)
          = exceeded_count (self h)) as ->.
  { unfold exceeded_count. f_equal.
    rewrite <- !(size_dom (D:=gset K)). f_equal.
    apply set_eq. intros k.
    rewrite !elem_of_dom, over_limit_update_failure_counts, Hnil.
    split; [intros [?|?%elem_of_nil]; done|by left]. }
  destruct (update_failure_counts_loop_frame l [] h) as (_ & Hmt & _).
  unfold update_failure_counts. by rewrite Hmt.
Qed.

(** X6: the returned list is empty exactly when, after the call, no instance
    of the batch has a counter above the limit. *)
Theorem update_failure_counts_returns_nothing_iff l h :
  (update_failure_counts l h).1 = []
  ↔ ∀ a, a ∈ l →
      failure_count (self (update_failure_counts l h).2) a
      ≤ _max_per_instance_failures (self h).
Proof.
  unfold update_failure_counts.
  setoid_rewrite update_failure_counts_loop_count. split.
  - intros Hnil a Ha.
    destruct (decide (failure_count (self h) a + occurrences a l
                      ≤ _max_per_instance_failures (self h)))
      as [|Hgt]; [done|].
    assert (a ∈ (update_failure_counts_loop l [] h).1) as Hin.
    { apply update_failure_counts_loop_elem_of. right. split; [done|lia]. }
    rewrite Hnil in Hin. by apply elem_of_nil in Hin.
  - intros Hall.
    destruct (update_failure_counts_loop l [] h).1 as [|a r] eqn:Hret;
      [done|].
    assert (a ∈ (update_failure_counts_loop l [] h).1) as Hin
      by (rewrite Hret; by left).
    apply update_failure_counts_loop_elem_of in Hin
      as [?%elem_of_nil|[Hin Hgt]]; [done|].
    apply Hall in Hin. lia.
Qed.

(** X7: the returned list is the whole batch exactly when every instance of
    the batch had already reached the limit before the call. *)
Theorem update_failure_counts_returns_batch_iff l h :
  (update_failure_counts l h).1 = l
  ↔ ∀ a, a ∈ l →
      _max_per_instance_failures (self h) ≤ failure_count (self h) a.
Proof.
  unfold update_failure_counts. split.
  - intros Hret a Ha%occurrences_pos.
    pose proof (update_failure_counts_loop_occurrences l [] h a) as Hocc.
    rewrite Hret in Hocc. simpl in Hocc. lia.
  - intros Hall. by rewrite update_failure_counts_loop_all.
Qed.

(** X8: a sequence of calls is one call with the batches concatenated: the
    accountant at the end is the same, and the returned lists, appended in
    call order, are the list the single call returns. *)
Theorem update_failure_counts_concat (batches : list (list K)) h :
  foldl (λ acc l,
           (acc.1 ++ (update_failure_counts l acc.2).1,
            (update_failure_counts l acc.2).2))
        ([], h) batches
  = update_failure_counts (concat batches) h.
Proof.
  assert (∀ r0,
            foldl (λ acc l,
                     (acc.1 ++ (update_failure_counts l acc.2).1,
                      (update_failure_counts l acc.2).2))
                  (r0, h) batches
            = (r0 ++ (update_failure_counts (concat batches) h).1,
               (update_failure_counts (concat batches) h).2)) as Hgen.
  { revert h. induction batches as [|l batches IH]; intros h r0.
    - simpl. by rewrite app_nil_r.
    - simpl foldl. simpl concat. rewrite IH, update_failure_counts_app.
      simpl. by rewrite <- app_assoc. }
  rewrite Hgen. simpl. by destruct (update_failure_counts _ _).
Qed.

(** X9: the counters add up to the failures reported.  A call raises the
    sum of the stored counters by the length of its batch. *)
Theorem recorded_failures_update_failure_counts l h :
  recorded_failures (self (update_failure_counts l h).2)
  = recorded_failures (self h) + Z.of_nat (length l).
Proof. apply recorded_failures_update_failure_counts_loop. Qed.

(** X10: with a non-negative per-instance limit, an accountant a client can
    hold reports the update as failed only if at least
    [(max_per_instance_failures + 1) * (max_total_failures + 1)] failures are
    on record. *)
Theorem is_failed_update_needs_enough_failures (ft : t K) log :
  reachable ft →
  0 ≤ _max_per_instance_failures ft →
  (is_failed_update (mkHeap ft log)).1 = true →
  (_max_per_instance_failures ft + 1) * (_max_total_failures ft + 1)
    ≤ recorded_failures ft.
Proof.
  intros Hpos%reachable_counters_positive Hmp.
  rewrite is_failed_update_result. simpl. intros Hfailed%Z.gtb_lt.
  etransitivity; [|apply recorded_failures_exceeded_count; [|done]].
  - apply Z.mul_le_mono_nonneg_l; lia.
  - intros k c Hk%Hpos. lia.
Qed.

(** X11: zero tolerance.  With a per-instance limit of 0 (or less), an
    accountant a client can hold reports the update as failed exactly when
    the number of distinct instances that ever failed is above the total
    limit. *)
Theorem is_failed_update_zero_tolerance (ft : t K) log :
  reachable ft →
  _max_per_instance_failures ft ≤ 0 →
  (is_failed_update (mkHeap ft log)).1 = true
  ↔ _max_total_failures ft
    < Z.of_nat (size (dom (_failures_by_instance ft) : gset K)).
Proof.
  intros Hreach Hmp. rewrite is_failed_update_result. simpl.
  unfold exceeded_count. rewrite over_limit_zero_tolerance by done.
  rewrite size_dom. split; [by intros ?%Z.gtb_lt|by intros ?%Z.gtb_lt].
Qed.


(** X13: the accountants a client can hold are exactly those obtained from a
    freshly constructed one by a single call to [update_failure_counts]. *)
Theorem reachable_iff_single_batch (ft : t K) :
  reachable ft
  ↔ ∃ mp mt l,
      ft = self (update_failure_counts l (mkHeap (__init__ mp mt) [])).2.
Proof.
  split; [apply reachable_single_batch|].
  intros (mp & mt & l & ->). apply reachable_update, reachable_init.
Qed.

End Accounting.

(** ** The further properties at concrete accountants *)


(** Both limits at 0: after one failure the update is failed and stays so. *)
Lemma is_failed_update_latches_witness :
  let h := (update_failure_counts [4] (mkHeap (__init__ (K:=Z) 0 0) [])).2 in
  (is_failed_update h).1 = true
  ∧ (is_failed_update (update_failure_counts [9; 4] h).2).1 = true.
Proof.
  intros h.
  assert ((is_failed_update h).1 = true) as Hfailed
    by (vm_compute; reflexivity).
  split; [done|]. by apply is_failed_update_latches.
Defined.

(** Under a limit of 1 the first failure of instance 4 returns nothing. *)
Lemma is_failed_update_unchanged_when_nothing_returned_witness :
  let h := mkHeap (__init__ (K:=Z) 1 0) [] in
  (update_failure_counts [4] h).1 = []
  ∧ (is_failed_update (update_failure_counts [4] h).2).1
    = (is_failed_update h).1.
Proof.
  intros h.
  assert ((update_failure_counts [4] h).1 = []) as Hnil
    by (vm_compute; reflexivity).
  split; [done|].
  by apply is_failed_update_unchanged_when_nothing_returned.
Defined.

(** Under a limit of 1, two failures of one instance return it once, and two
    failures of two instances return nothing. *)
Lemma update_failure_counts_returns_nothing_iff_witness :
  let h := mkHeap (__init__ (K:=Z) 1 0) [] in
  (update_failure_counts [4; 6] h).1 = []
  ∧ (update_failure_counts [4; 4] h).1 ≠ [].
Proof.
  intros h. split.
  - apply (proj2 (update_failure_counts_returns_nothing_iff [4; 6] h)).
    intros a [->|[->|?%elem_of_nil]%elem_of_cons]%elem_of_cons;
      [vm_compute; discriminate..|done].
  - intros Hnil.
    pose proof (proj1 (update_failure_counts_returns_nothing_iff [4; 4] h)
                  Hnil 4 ltac:(by left)) as Hle.
    vm_compute in Hle. by apply Hle.
Defined.

(** Under a limit of 0 a fresh accountant returns every batch whole. *)
Lemma update_failure_counts_returns_batch_iff_witness :
  (update_failure_counts [4; 6; 4] (mkHeap (__init__ (K:=Z) 0 0) [])).1
  = [4; 6; 4].
Proof.
  apply (proj2 (update_failure_counts_returns_batch_iff _ _)).
  intros a _. vm_compute. discriminate.
Defined.

(** Limits 1 and 1: four failures, two for each of two instances, are the
    least that make the update fail. *)
Lemma is_failed_update_needs_enough_failures_witness :
  let ft :=
    self (update_failure_counts [2; 5; 2; 5]
            (mkHeap (__init__ (K:=Z) 1 1) [])).2 in
  (is_failed_update (mkHeap ft [])).1 = true
  ∧ (1 + 1) * (1 + 1) ≤ recorded_failures ft.
Proof.
  intros ft.
  assert ((is_failed_update (mkHeap ft [])).1 = true) as Hfailed
    by (vm_compute; reflexivity).
  split; [done|].
  apply (is_failed_update_needs_enough_failures ft []);
    [apply reachable_update, reachable_init|vm_compute; discriminate|done].
Defined.

(** Per-instance limit 0 and total limit 1: two distinct failed instances
    make the update fail. *)
Lemma is_failed_update_zero_tolerance_witness :
  let ft :=
    self (update_failure_counts [2; 5]
            (mkHeap (__init__ (K:=Z) 0 1) [])).2 in
  (is_failed_update (mkHeap ft [])).1 = true.
Proof.
  intros ft.
  apply (is_failed_update_zero_tolerance ft []);
    [apply reachable_update, reachable_init|vm_compute; discriminate|].
  vm_compute. reflexivity.
Defined.

(** An accountant reached by two calls and a query is reached by one call. *)
Lemma reachable_iff_single_batch_witness :
  let h0 := mkHeap (__init__ (K:=Z) 1 1) [] in
  let h1 := (update_failure_counts [2; 5] h0).2 in
  let h2 := (is_failed_update h1).2 in
  ∃ mp mt l,
    self (update_failure_counts [2] h2).2
    = self (update_failure_counts l (mkHeap (__init__ mp mt) [])).2.
Proof.
  intros h0 h1 h2.
  apply (proj1 (reachable_iff_single_batch _)).
  apply (reachable_update (self h2) (error_log h2)).
  apply (reachable_query (self h1) (error_log h1)).
  apply (reachable_update (__init__ 1 1) []).
  apply reachable_init.
Defined.

End FailureThreshold.

(** ** Properties of the configuration *)

(** C3: constructing an [UpdaterConfig] raises exactly when the batch size,
    the restart threshold or the watch time is not positive; the message of
    the error names a field that is not positive; and when all three are
    positive the object is built whatever the two failure limits are, negative
    values included. *)
Theorem UpdaterConfig_init_validates
    (batch_size restart_threshold watch_secs
     max_per_shard_failures max_total_failures : Z) :
  ((∃ msg, UpdaterConfig.__init__ batch_size restart_threshold watch_secs
             max_per_shard_failures max_total_failures
           = Raise (ValueError msg))
   ↔ batch_size ≤ 0 ∨ restart_threshold ≤ 0 ∨ watch_secs ≤ 0)
  ∧ (∀ msg, UpdaterConfig.__init__ batch_size restart_threshold watch_secs
              max_per_shard_failures max_total_failures
            = Raise (ValueError msg) →
       (msg = "Batch size should be greater than 0"%string
        ∧ batch_size ≤ 0)
       ∨ (msg = "Restart Threshold should be greater than 0"%string
          ∧ restart_threshold ≤ 0)
       ∨ (msg = "Watch seconds should be greater than 0"%string
          ∧ watch_secs ≤ 0))
  ∧ (0 < batch_size → 0 < restart_threshold → 0 < watch_secs →
     UpdaterConfig.__init__ batch_size restart_threshold watch_secs
       max_per_shard_failures max_total_failures
     = Ok (UpdaterConfig.mk batch_size restart_threshold watch_secs
             max_total_failures max_per_shard_failures)).
Proof.
  unfold UpdaterConfig.__init__.
  destruct (Z.leb_spec batch_size 0) as [Hb|Hb];
    [|destruct (Z.leb_spec restart_threshold 0) as [Hr|Hr];
      [|destruct (Z.leb_spec watch_secs 0) as [Hw|Hw]]].
  - split_and!; [split; eauto| |lia].
    intros msg [= <-]. by left.
  - split_and!; [split; eauto| |lia].
    intros msg [= <-]. right. by left.
  - split_and!; [split; eauto| |lia].
    intros msg [= <-]. right. by right.
  - split_and!; [|done|done].
    split; [intros [msg [=]]|lia].
Qed.

(** Negative failure limits are accepted; a restart threshold of 0 is not. *)
Lemma UpdaterConfig_init_validates_witness :
  UpdaterConfig.__init__ 3 10 30 (-1) (-2)
  = Ok (UpdaterConfig.mk 3 10 30 (-2) (-1))
  ∧ ∃ msg, UpdaterConfig.__init__ 3 0 30 0 0 = Raise (ValueError msg).
Proof.
  split.
  - apply (proj2 (proj2 (UpdaterConfig_init_validates 3 10 30 (-1) (-2))));
      lia.
  - apply (proj1 (UpdaterConfig_init_validates 3 0 30 0 0)).
    right. left. lia.
Defined.
